(** * Precinct cross-reference resolution: [santa_cruz_precincts.py]

    A shallow embedding of [explode_xref], [join_by_field],
    [update_precincts] and [run_tools] of
    [images/santa_cruz_precincts/py/santa_cruz_precincts.py], and the
    properties of the resolution pipeline stated over it.

    Conventions of the embedding.
    - A text field is a [string]; a nullable text field is an
      [option string] ([None] is Python's [None]).
    - A Python [dict] is an association list in insertion order with unique
      keys: [items()] enumerates it in that order.
    - The iteration order of a Python [set] is unspecified; it is a parameter
      ([set_order]) of everything that iterates over a set.
    - [sys.exit(n)] is the result [SysExit n]. The toolkit's own failures
      ([arcpy.ExecuteError]), the [arcpy.Exists] assertions and the progress
      messages belong to the environment and are left out. *)

From Stdlib Require Import ZArith Ascii String.
From stdpp Require Import gmap strings list fin_maps.

Open Scope string_scope.
Open Scope list_scope.

(** ** Text: [str.split()] *)

(** [str.isspace] on the code points below 256. *)
Definition isspace (c : ascii) : bool :=
  let n := nat_of_ascii c in
  (Nat.leb 9 n && Nat.leb n 13) || (Nat.leb 28 n && Nat.leb n 32)
  || Nat.eqb n 133 || Nat.eqb n 160.

(** The token being read is pushed to the result when it is not empty. *)
Definition flush (cur : string) : list string :=
  match cur with
  | EmptyString => []
  | _ => [cur]
  end.

Fixpoint split_from (cur : string) (s : string) : list string :=
  match s with
  | EmptyString => flush cur
  | String c s' =>
      if isspace c then flush cur ++ split_from "" s'
      else split_from (cur +:+ String c "") s'
  end.

(** [s.split()]: the maximal runs of non-whitespace characters of [s]. *)
Definition split (s : string) : list string := split_from "" s.

(** ** Sets: iteration order *)

(** [for x in set(l)] visits every distinct element of [l] once, in an order
    the language does not fix. *)
Record set_order := SetOrder {
  iter_of : list string → list string;
  iter_NoDup : ∀ l, NoDup (iter_of l);
  iter_elem : ∀ l x, x ∈ iter_of l ↔ x ∈ l
}.

(** Two iteration orders to run the code with: by first occurrence, and
    backwards from the last token. *)
Program Definition first_seen_order : set_order :=
  {| iter_of l := reverse (remove_dups (reverse l)) |}.
Next Obligation.
  intros l. rewrite reverse_Permutation. apply NoDup_remove_dups.
Qed.
Next Obligation.
  intros l x. rewrite elem_of_reverse, elem_of_remove_dups, elem_of_reverse.
  done.
Qed.

Program Definition reversed_order : set_order :=
  {| iter_of l := reverse (remove_dups l) |}.
Next Obligation.
  intros l. rewrite reverse_Permutation. apply NoDup_remove_dups.
Qed.
Next Obligation.
  intros l x. rewrite elem_of_reverse. apply elem_of_remove_dups.
Qed.

(** ** Dictionaries *)

(** [precincts_1to1]: regular precinct to voting precinct. *)
Definition dict := list (string * string).

(** [d[k] = v]: an existing key keeps its place, a new one goes last. *)
Fixpoint dict_set (d : dict) (k v : string) : dict :=
  match d with
  | [] => [(k, v)]
  | (k', v') :: d' =>
      if decide (k' = k) then (k', v) :: d'
      else (k', v') :: dict_set d' k v
  end.

Fixpoint dict_get (d : dict) (k : string) : option string :=
  match d with
  | [] => None
  | (k', v') :: d' => if decide (k' = k) then Some v' else dict_get d' k
  end.

(** The dictionary as a finite map, forgetting the insertion order. *)
Definition dict_to_map (d : dict) : gmap string string := list_to_map d.

(** ** Results *)

Inductive exn :=
  | AttributeError
  | KeyError (key : string).

Inductive status :=
  | Returned
  | SysExit (code : Z).

(** ** [explode_xref] *)

(** A row of the cross-reference table as the search cursor yields it:
    [(VotePrec, _Precincts)]. The voting precinct is a text value, as in the
    data model; the member list may be null. *)
Definition xref_row : Type := string * option string.

(** A row of the exploded table: [(Precinct, VotePrec)]. *)
Definition table := list (string * string).

Section Explode.
Variable order : set_order.

(** The body of the search loop. [None.split()] raises. *)
Definition search_row (precincts_1to1 : dict) (row : xref_row) : exn + dict :=
  let '(voting_precinct, regular_precincts_str) := row in
  match regular_precincts_str with
  | None => inl AttributeError
  | Some str =>
      let regular_precincts_set := iter_of order (split str) in
      inr (foldl (λ d regular_precinct,
                    dict_set d regular_precinct voting_precinct)
                 precincts_1to1 regular_precincts_set)
  end.

Fixpoint search_loop (precincts_1to1 : dict) (search_cur : list xref_row)
  : exn + dict :=
  match search_cur with
  | [] => inr precincts_1to1
  | row :: search_cur' =>
      match search_row precincts_1to1 row with
      | inl e => inl e
      | inr d => search_loop d search_cur'
      end
  end.

(** The insert loop over [precincts_1to1.items()]: the row written is
    [[regular_precinct, precincts_1to1[voting_precinct]]]. Rows written
    before an exception stay in the table. *)
Fixpoint insert_loop (precincts_1to1 : dict) (items : list (string * string))
    (xref_explode_table : table) : option exn * table :=
  match items with
  | [] => (None, xref_explode_table)
  | (regular_precinct, voting_precinct) :: items' =>
      match dict_get precincts_1to1 voting_precinct with
      | None => (Some (KeyError voting_precinct), xref_explode_table)
      | Some v =>
          insert_loop precincts_1to1 items'
            (xref_explode_table ++ [(regular_precinct, v)])
      end
  end.

(** Both [try] blocks end in [except Exception: ... sys.exit(n)]. *)
Definition explode_xref (xref_table : list xref_row)
    (xref_explode_table : table) : status * table :=
  match search_loop [] xref_table with
  | inl _ => (SysExit 207, xref_explode_table)
  | inr precincts_1to1 =>
      match insert_loop precincts_1to1 precincts_1to1 xref_explode_table with
      | (Some _, tbl) => (SysExit 208, tbl)
      | (None, tbl) => (Returned, tbl)
      end
  end.
End Explode.

(** ** The mapping in terms of the rows

    The notions the properties below are stated with: which rows mention a
    key, the assignment the specification gives a key (that of the last row
    mentioning it), and what the insert loop has written when it stops. *)

(** The row has a member list and [k] is one of its tokens. *)
Definition mentions (k : string) (row : xref_row) : Prop :=
  match row.2 with
  | Some str => k ∈ split str
  | None => False
  end.

#[global] Instance mentions_dec k row : Decision (mentions k row).
Proof. unfold mentions. destruct (row.2); apply _. Defined.

(** The voting precinct of the last row that mentions [k]. *)
Definition last_assignment (rows : list xref_row) (k : string) : option string :=
  fst <$> last (filter (mentions k) rows).

(** The rows the insert loop writes before it stops. *)
Fixpoint written (d : dict) (items : list (string * string)) : table :=
  match items with
  | [] => []
  | (k, v) :: items' =>
      match dict_get d v with
      | None => []
      | Some g => (k, g) :: written d items'
      end
  end.

(** Every voting precinct of the dictionary is itself one of its keys. *)
Definition closed (d : dict) : Prop :=
  Forall (λ item, is_Some (dict_get d item.2)) d.

(** Every voting precinct that is assigned is itself a regular precinct of
    some member list. *)
Definition groups_listed (rows : list xref_row) : Prop :=
  ∀ k v, last_assignment rows k = Some v → is_Some (last_assignment rows v).


(** ** The precincts feature class *)

Section Precincts.
(** The geometry and the attributes the pipeline never names. *)
Context {Attrs : Type}.

Record precinct_row := PrecinctRow {
  Precinct : string;
  VotePrec : option string;
  other_fields : Attrs
}.

(** Modelled from the spec: the toolkit's [JoinField], which is not part of
    the sources. The value it transfers to an input row is that of the
    first row of the join table whose join field equals the row's key, and
    null when there is none. *)
Fixpoint first_match (join_table : table) (key : string) : option string :=
  match join_table with
  | [] => None
  | (k, v) :: join_table' =>
      if decide (k = key) then Some v else first_match join_table' key
  end.

(** [join_by_field(precincts, "Precinct", xref_explode, "Precinct",
    ["VotePrec"])]: every input row is kept, with [VotePrec] transferred. *)
Definition join_by_field (in_data : list precinct_row) (join_table : table)
  : list precinct_row :=
  map (λ r, {| Precinct := Precinct r;
               VotePrec := first_match join_table (Precinct r);
               other_fields := other_fields r |}) in_data.

(** The update cursor exposes the fields [["Precinct", "VotePrec"]] of the
    rows selected by [where_clause='"VotePrec" is null']. *)
Definition where_clause (r : precinct_row) : bool :=
  bool_decide (VotePrec r = None).

Definition cursor_fields (r : precinct_row) : string * option string :=
  (Precinct r, VotePrec r).

(** [update_cur.updateRow(row)] writes the cursor's fields back. *)
Definition updateRow (r : precinct_row) (row : string * option string)
  : precinct_row :=
  {| Precinct := row.1; VotePrec := row.2; other_fields := other_fields r |}.

(** The loop of [update_precincts], threading [update_count]. *)
Fixpoint update_loop (update_cur : list precinct_row) (update_count : nat)
  : list precinct_row * nat :=
  match update_cur with
  | [] => ([], update_count)
  | r :: update_cur' =>
      if where_clause r then
        let '(precinct, voting_precinct) := cursor_fields r in
        match voting_precinct with
        | None =>
            let r' := updateRow r (precinct, Some precinct) in
            let '(fc, n) := update_loop update_cur' (S update_count) in
            (r' :: fc, n)
        | Some _ =>
            let '(fc, n) := update_loop update_cur' update_count in
            (r :: fc, n)
        end
      else
        let '(fc, n) := update_loop update_cur' update_count in
        (r :: fc, n)
  end.

(** [update_precincts]: the feature class afterwards and the count it
    prints. *)
Definition update_precincts (precincts_fc : list precinct_row)
  : list precinct_row * nat :=
  update_loop precincts_fc 0.

(** What the cursor loop does to one row. *)
Definition filled (r : precinct_row) : precinct_row :=
  match VotePrec r with
  | None => PrecinctRow (Precinct r) (Some (Precinct r)) (other_fields r)
  | Some _ => r
  end.

(** ** [run_tools] *)

Inductive run_result :=
  | Finished (precincts : list precinct_row)
  | Aborted (code : Z).

(** [xref_explode] is created empty; the dissolve that follows works on
    the feature class returned here. *)
Definition run_tools (order : set_order) (xref : list xref_row)
    (precincts : list precinct_row) : run_result :=
  let xref_explode : table := [] in
  match explode_xref order xref xref_explode with
  | (SysExit code, _) => Aborted code
  | (Returned, xref_explode) =>
      let precincts := join_by_field precincts xref_explode in
      Finished (update_precincts precincts).1
  end.
End Precincts.

Arguments precinct_row : clear implicits.
Arguments run_result : clear implicits.

(** The text has no whitespace character. *)
Definition no_space (s : string) : Prop :=
  Forall (λ c, isspace c = false) (list_ascii_of_string s).

(** * Road names: [copy_field]

    [copy_field] of
    [images/santa_cruz_public_works/py/santa_cruz_precincts.py]. Its
    dictionary is only looked up, never enumerated, so it is a finite map.
    Keys and values are whatever the two fields hold, null included. *)

Section CopyField.
Context `{Countable K} {V Attrs : Type}.

(** A row of the target feature class: the key and the field the update
    cursor exposes, [[to_key_name, to_field_name]], and the attributes it
    does not. *)
Record target_row := TargetRow {
  to_key : K;
  to_field : V;
  to_rest : Attrs
}.

(** The search loop: [from_values_dict[k] = v] for every row [(k, v)] of the
    source feature class. *)
Definition from_values (search_cur : list (K * V)) : gmap K V :=
  foldl (λ from_values_dict row, <[row.1 := row.2]> from_values_dict)
        ∅ search_cur.

(** The body of the update loop; [updateRow] is called on every row. *)
Definition copy_row (from_values_dict : gmap K V) (r : target_row)
  : target_row :=
  let to_row := (to_key r, to_field r) in
  let this_key := to_row.1 in
  let to_row :=
    match from_values_dict !! this_key with
    | Some v => (to_row.1, v)
    | None => to_row
    end in
  {| to_key := to_row.1; to_field := to_row.2; to_rest := to_rest r |}.

Definition copy_field (from_fc : list (K * V)) (to_fc : list target_row)
  : list target_row :=
  let from_values_dict := from_values from_fc in
  map (copy_row from_values_dict) to_fc.
End CopyField.

Arguments target_row : clear implicits.

(** * The map index: [santa_cruz_sanitation.py]

    The loop that moves the files the index refers to from the old directory
    to the new one. A directory is the set of the names of its files; the
    [FileName] field is a text value. *)

Record move_state := MoveState {
  old_files : gset string;
  new_files : gset string;
  files_not_found : list string;
  duplicate_file_refs : list string
}.

(** The body of the loop over the search cursor [["OID@", "FileName"]]. The
    entry of [files_not_found] is the path in the old directory; it is kept
    by its file name, which is what the report prints. *)
Definition move_row (st : move_state) (row : Z * string) : move_state :=
  let '(curr_id, curr_file) := row in
  if bool_decide (curr_file ∈ old_files st)
     && negb (bool_decide (curr_file ∈ new_files st)) then
    {| old_files := old_files st ∖ {[curr_file]};
       new_files := new_files st ∪ {[curr_file]};
       files_not_found := files_not_found st;
       duplicate_file_refs := duplicate_file_refs st |}
  else if bool_decide (curr_file ∈ new_files st) then
    {| old_files := old_files st;
       new_files := new_files st;
       files_not_found := files_not_found st;
       duplicate_file_refs := duplicate_file_refs st ++ [curr_file] |}
  else
    {| old_files := old_files st;
       new_files := new_files st;
       files_not_found := files_not_found st ++ [curr_file];
       duplicate_file_refs := duplicate_file_refs st |}.

(** The whole loop, from the two directories and empty lists. *)
Definition move_files (old_dir new_dir : gset string)
    (cursor : list (Z * string)) : move_state :=
  foldl move_row
    {| old_files := old_dir; new_files := new_dir;
       files_not_found := []; duplicate_file_refs := [] |}
    cursor.

(** * Facts about dictionaries *)

Section DictFacts.
Implicit Types (d : dict) (k v : string).

Lemma dict_to_map_lookup d k : dict_to_map d !! k = dict_get d k.
Proof.
  unfold dict_to_map.
  induction d as [|[k' v'] d IH]; simpl; [apply lookup_empty|].
  rewrite lookup_insert. by destruct (decide (k' = k)).
Qed.

Lemma dict_get_set d k v k' :
  dict_get (dict_set d k v) k' = if decide (k = k') then Some v else dict_get d k'.
Proof.
  induction d as [|[k0 v0] d IH]; simpl.
  - done.
  - destruct (decide (k0 = k)) as [->|Hne]; simpl.
    + by destruct (decide (k = k')).
    + destruct (decide (k0 = k')) as [->|]; [|done].
      by rewrite decide_False.
Qed.

Lemma dict_set_keys d k v :
  (dict_set d k v).*1 = if decide (k ∈ d.*1) then d.*1 else d.*1 ++ [k].
Proof.
  induction d as [|[k0 v0] d IH]; [done|].
  cbn [dict_set]. destruct (decide (k0 = k)) as [->|Hne].
  - rewrite decide_True; [done|]. apply elem_of_cons; by left.
  - rewrite fmap_cons, IH. cbn [fst fmap list_fmap].
    destruct (decide (k ∈ d.*1)) as [Hin|Hnin].
    + rewrite decide_True; [done|]. apply elem_of_cons; by right.
    + rewrite decide_False; [done|].
      rewrite elem_of_cons. intros [->|?]; done.
Qed.

Lemma dict_set_NoDup d k v : NoDup d.*1 → NoDup (dict_set d k v).*1.
Proof.
  intros Hd. rewrite dict_set_keys. case_decide; [done|].
  apply NoDup_app. split_and!; [done| |apply NoDup_singleton].
  intros x Hx Hk. apply list_elem_of_singleton in Hk. by subst.
Qed.

Lemma dict_get_elem d k v : NoDup d.*1 → dict_get d k = Some v ↔ (k, v) ∈ d.
Proof.
  intros Hd. rewrite <-dict_to_map_lookup. unfold dict_to_map.
  symmetry. by apply elem_of_list_to_map.
Qed.

Lemma dict_get_None d k : dict_get d k = None ↔ k ∉ d.*1.
Proof.
  rewrite <-dict_to_map_lookup. unfold dict_to_map.
  symmetry. apply not_elem_of_list_to_map.
Qed.

Lemma dict_get_is_Some d k : is_Some (dict_get d k) ↔ k ∈ d.*1.
Proof.
  rewrite <-not_eq_None_Some, dict_get_None.
  split; [apply dec_stable|by intros ? ?].
Qed.

(** Assigning one value to a run of keys. *)
Lemma foldl_dict_set_get (l : list string) d v k :
  dict_get (foldl (λ d k, dict_set d k v) d l) k
  = if decide (k ∈ l) then Some v else dict_get d k.
Proof.
  revert d. induction l as [|x l IH]; intros d; [done|].
  - cbn [foldl]. rewrite IH, dict_get_set.
    destruct (decide (k ∈ l)) as [Hin|Hnin].
    + rewrite decide_True; [done|]. apply elem_of_cons; by right.
    + destruct (decide (x = k)) as [->|Hne].
      * rewrite decide_True; [done|]. apply elem_of_cons; by left.
      * rewrite decide_False; [done|].
        rewrite elem_of_cons. intros [->|?]; done.
Qed.

Lemma foldl_dict_set_NoDup (l : list string) d v :
  NoDup d.*1 → NoDup (foldl (λ d k, dict_set d k v) d l).*1.
Proof.
  revert d. induction l as [|x l IH]; intros d Hd; simpl; [done|].
  by apply IH, dict_set_NoDup.
Qed.
End DictFacts.

(** * Facts about the two loops of [explode_xref] *)

Section LoopFacts.
Variable order : set_order.
Implicit Types (d : dict) (rows : list xref_row) (k v : string).

Lemma search_row_get d v str d' k :
  search_row order d (v, Some str) = inr d' →
  dict_get d' k = if decide (k ∈ split str) then Some v else dict_get d k.
Proof.
  intros [= <-]. rewrite foldl_dict_set_get.
  destruct (decide (k ∈ iter_of order (split str))) as [Hin|Hnin].
  - rewrite decide_True; [done|]. by apply iter_elem in Hin.
  - rewrite decide_False; [done|]. by rewrite <-(iter_elem order).
Qed.

Lemma search_row_NoDup d row d' :
  search_row order d row = inr d' → NoDup d.*1 → NoDup d'.*1.
Proof.
  destruct row as [v [str|]]; [|done].
  intros [= <-] Hd. by apply foldl_dict_set_NoDup.
Qed.

Lemma search_loop_NoDup rows d d' :
  search_loop order d rows = inr d' → NoDup d.*1 → NoDup d'.*1.
Proof.
  revert d. induction rows as [|row rows IH]; intros d; simpl.
  - by intros [= <-].
  - destruct (search_row order d row) as [e|d1] eqn:Hrow; [done|].
    intros Hloop Hd. eapply IH; [done|]. by eapply search_row_NoDup.
Qed.

(** The search loop raises exactly when some member list is null. *)
Lemma search_loop_raises rows d :
  Exists (λ row, row.2 = None) rows →
  search_loop order d rows = inl AttributeError.
Proof.
  intros Hex. revert d.
  induction rows as [|[v [str|]] rows IH]; intros d; simpl.
  - by apply Exists_nil in Hex.
  - apply IH. apply Exists_cons in Hex as [Hex|Hex]; done.
  - done.
Qed.

Lemma search_loop_returns rows d :
  Forall (λ row, is_Some row.2) rows →
  ∃ d', search_loop order d rows = inr d'.
Proof.
  intros Hall. revert d.
  induction Hall as [|[v [str|]] rows [? Hs] Hall IH]; intros d; simpl.
  - by eexists.
  - apply IH.
  - done.
Qed.

(** Last write wins: afterwards a key holds the voting precinct of the
    last row that mentions it. *)
Lemma search_loop_get rows d d' k :
  search_loop order d rows = inr d' →
  dict_get d' k = match last_assignment rows k with
                  | Some v => Some v
                  | None => dict_get d k
                  end.
Proof.
  unfold last_assignment. revert d.
  induction rows as [|[v [str|]] rows IH]; intros d; simpl.
  - by intros [= <-].
  - intros Hloop. rewrite (IH _ Hloop), filter_cons.
    rewrite foldl_dict_set_get.
    destruct (decide (mentions k (v, Some str))) as [Hm|Hm];
      unfold mentions in Hm; simpl in Hm.
    + rewrite last_cons. destruct (last (filter _ rows)); simpl; [done|].
      rewrite decide_True; [done|]. by apply iter_elem.
    + destruct (last (filter _ rows)); simpl; [done|].
      rewrite decide_False; [done|]. by rewrite iter_elem.
  - done.
Qed.

Lemma last_assignment_is_Some rows k :
  is_Some (last_assignment rows k) ↔ Exists (mentions k) rows.
Proof.
  unfold last_assignment. rewrite fmap_is_Some, Exists_exists. split.
  - intros [row Hlast].
    apply last_Some_elem_of, list_elem_of_filter in Hlast as [Hm Hin].
    by exists row.
  - intros (row & Hin & Hm).
    destruct (last (filter (mentions k) rows)) eqn:Hlast; [by eexists|].
    apply last_None in Hlast.
    assert (row ∈ filter (mentions k) rows) as Hf
      by by apply list_elem_of_filter.
    rewrite Hlast in Hf. by apply not_elem_of_nil in Hf.
Qed.

(** The keys of the dictionary are the tokens of the member lists. *)
Lemma search_loop_keys rows d' k :
  search_loop order [] rows = inr d' →
  k ∈ d'.*1 ↔ Exists (mentions k) rows.
Proof.
  intros Hloop.
  rewrite <-last_assignment_is_Some, <-dict_get_is_Some.
  rewrite (search_loop_get _ _ _ _ Hloop). simpl.
  destruct (last_assignment rows k); [|done].
  split; intros _; by eexists.
Qed.

Lemma insert_loop_table d items tbl :
  (insert_loop d items tbl).2 = tbl ++ written d items.
Proof.
  revert tbl. induction items as [|[k v] items IH]; intros tbl; simpl.
  - by rewrite app_nil_r.
  - destruct (dict_get d v); simpl; [|by rewrite app_nil_r].
    by rewrite IH, <-app_assoc.
Qed.

Lemma insert_loop_status d items tbl :
  (insert_loop d items tbl).1 = None
  ↔ Forall (λ item, is_Some (dict_get d item.2)) items.
Proof.
  revert tbl. induction items as [|[k v] items IH]; intros tbl; simpl.
  - split; [by constructor|done].
  - rewrite Forall_cons. simpl.
    destruct (dict_get d v) as [g|] eqn:Hv; simpl.
    + rewrite IH. split; [by split; [eexists|]|by intros [_ ?]].
    + split; [done|]. by intros [[? [=]] _].
Qed.

Lemma written_keys d items : (written d items).*1 `prefix_of` items.*1.
Proof.
  induction items as [|[k v] items IH]; simpl; [done|].
  destruct (dict_get d v); simpl.
  - by apply prefix_cons.
  - apply prefix_nil.
Qed.

Lemma written_length d items :
  Forall (λ item, is_Some (dict_get d item.2)) items →
  length (written d items) = length items.
Proof.
  induction 1 as [|[k0 v0] items [g Hg] Hall IH]; simpl; [done|].
  simpl in Hg. rewrite Hg. simpl. by rewrite IH.
Qed.

Lemma written_lookup d items k :
  Forall (λ item, is_Some (dict_get d item.2)) items →
  dict_get (written d items) k = dict_get items k ≫= dict_get d.
Proof.
  induction 1 as [|[k0 v0] items [g Hg] Hall IH]; simpl; [done|].
  simpl in Hg. rewrite Hg. simpl.
  destruct (decide (k0 = k)); simpl; [by rewrite Hg|done].
Qed.

(** The result of [explode_xref] in terms of the dictionary built. *)
Lemma explode_xref_result rows d tbl :
  search_loop order [] rows = inr d →
  explode_xref order rows tbl
  = (if decide (closed d) then Returned else SysExit 208,
     tbl ++ written d d).
Proof.
  intros Hloop. unfold explode_xref. rewrite Hloop.
  pose proof (insert_loop_table d d tbl) as Htbl.
  pose proof (insert_loop_status d d tbl) as Hst.
  destruct (insert_loop d d tbl) as [[e|] tbl']; simpl in *; subst tbl'.
  - rewrite decide_False; [done|]. intros Hc. by apply Hst in Hc.
  - rewrite decide_True; [done|]. by apply Hst.
Qed.
End LoopFacts.

Section ExplodeFacts.
Variable order : set_order.
Implicit Types (d : dict) (rows : list xref_row) (k v : string).

Lemma iter_of_nil : iter_of order [] = [].
Proof.
  destruct (iter_of order []) as [|x l] eqn:Hl; [done|].
  assert (x ∈ iter_of order []) as Hx by (rewrite Hl; apply elem_of_cons; by left).
  apply iter_elem in Hx. by apply not_elem_of_nil in Hx.
Qed.

(** Keys that are all new are appended in the order they are visited. *)
Lemma foldl_dict_set_fresh (l : list string) d v :
  NoDup l → (∀ x, x ∈ l → x ∉ d.*1) →
  foldl (λ d k, dict_set d k v) d l = d ++ ((λ k, (k, v)) <$> l).
Proof.
  intros Hl. revert d.
  induction Hl as [|x l Hx Hl IH]; intros d Hfresh; simpl.
  - by rewrite app_nil_r.
  - assert (dict_set d x v = d ++ [(x, v)]) as ->.
    { assert (x ∉ d.*1) as Hxd by (apply Hfresh, elem_of_cons; by left).
      clear -Hxd. induction d as [|[k0 v0] d IH]; simpl; [done|].
      rewrite fmap_cons, not_elem_of_cons in Hxd. destruct Hxd as [Hne Hxd].
      rewrite decide_False by done. by rewrite IH. }
    rewrite IH, <-app_assoc; [done|].
    intros y Hy. rewrite fmap_app, elem_of_app. simpl.
    intros [Hyd|Hyx%list_elem_of_singleton].
    + eapply Hfresh; [|done]. apply elem_of_cons; by right.
    + by subst.
Qed.

Lemma search_loop_app rows1 rows2 d :
  search_loop order d (rows1 ++ rows2)
  = match search_loop order d rows1 with
    | inl e => inl e
    | inr d1 => search_loop order d1 rows2
    end.
Proof.
  revert d. induction rows1 as [|row rows1 IH]; intros d; simpl; [done|].
  destruct (search_row order d row); [done|apply IH].
Qed.

(** The values of the dictionary are voting precincts of the table. *)
Lemma search_loop_values rows d k v :
  search_loop order [] rows = inr d → (k, v) ∈ d → v ∈ rows.*1.
Proof.
  intros Hloop Hin.
  assert (NoDup d.*1) as Hnd
    by (eapply search_loop_NoDup; [done|apply NoDup_nil_2]).
  apply (dict_get_elem _ _ _ Hnd) in Hin.
  rewrite (search_loop_get _ _ _ _ _ Hloop) in Hin. simpl in Hin.
  unfold last_assignment in Hin.
  destruct (last (filter (mentions k) rows)) as [row|] eqn:Hlast;
    simpl in Hin; [|done].
  injection Hin as <-.
  apply last_Some_elem_of, list_elem_of_filter in Hlast as [_ Hrow].
  apply list_elem_of_fmap. by exists row.
Qed.

(** When no voting precinct of the table is itself listed as a regular
    precinct, the first lookup of the insert loop already raises. *)
Lemma explode_xref_unresolved rows tbl k0 :
  Forall (λ row, is_Some row.2) rows →
  Exists (mentions k0) rows →
  Forall (λ row, ¬ Exists (mentions row.1) rows) rows →
  explode_xref order rows tbl = (SysExit 208, tbl).
Proof.
  intros Hsome Hk0 Hno.
  destruct (search_loop_returns order rows [] Hsome) as [d Hd].
  rewrite (explode_xref_result _ _ _ _ Hd).
  assert (∀ k v, (k, v) ∈ d → dict_get d v = None) as Hun.
  { intros k v Hin. apply dict_get_None.
    rewrite (search_loop_keys _ _ _ _ Hd).
    apply (search_loop_values _ _ _ _ Hd) in Hin.
    apply list_elem_of_fmap in Hin as (row & -> & Hrow).
    by rewrite Forall_forall in Hno; apply Hno. }
  apply (search_loop_keys _ _ _ _ Hd) in Hk0.
  destruct d as [|[k v] d]; [by apply not_elem_of_nil in Hk0|].
  assert (dict_get ((k, v) :: d) v = None) as Hv
    by (eapply Hun, elem_of_cons; by left).
  rewrite decide_False.
  - cbn [written]. by rewrite Hv, app_nil_r.
  - intros Hc. apply Forall_cons in Hc as [[? Hc] _].
    cbn [snd] in Hc. by rewrite Hv in Hc.
Qed.

(** The exploded table never holds a regular precinct twice. *)
Lemma explode_xref_keys_NoDup rows : NoDup (explode_xref order rows []).2.*1.
Proof.
  destruct (search_loop order [] rows) as [e|d] eqn:Hd.
  - unfold explode_xref. rewrite Hd. simpl. apply NoDup_nil_2.
  - rewrite (explode_xref_result _ _ _ _ Hd). simpl.
    assert (NoDup d.*1) as Hnd
      by (eapply search_loop_NoDup; [done|apply NoDup_nil_2]).
    destruct (written_keys d d) as [l Hl]. rewrite Hl in Hnd.
    by apply NoDup_app in Hnd as (? & _ & _).
Qed.
End ExplodeFacts.

(** * Facts about the fill *)

Section FillFacts.
Context {Attrs : Type}.
Implicit Types (r : precinct_row Attrs) (fc : list (precinct_row Attrs)).

Lemma update_loop_rows fc n : (update_loop fc n).1 = filled <$> fc.
Proof.
  revert n. induction fc as [|r fc IH]; intros n; simpl; [done|].
  unfold where_clause, filled at 1.
  destruct (VotePrec r) as [g|] eqn:Hg; simpl.
  - specialize (IH n). destruct (update_loop fc n). simpl in IH. by subst.
  - specialize (IH (S n)). destruct (update_loop fc (S n)).
    simpl in IH. by subst.
Qed.

Lemma update_loop_count fc n :
  (update_loop fc n).2 = n + length (filter (λ r, VotePrec r = None) fc).
Proof.
  revert n. induction fc as [|r fc IH]; intros n; [simpl; lia|].
  cbn [update_loop]. rewrite filter_cons.
  unfold where_clause, cursor_fields.
  destruct (VotePrec r) as [g|].
  - rewrite bool_decide_false, decide_False by done.
    specialize (IH n). destruct (update_loop fc n). simpl in *. lia.
  - rewrite bool_decide_true, decide_True by done.
    specialize (IH (S n)). destruct (update_loop fc (S n)). simpl in *. lia.
Qed.

Lemma filled_is_Some r : is_Some (VotePrec (filled r)).
Proof. unfold filled. destruct (VotePrec r) eqn:Hg; simpl; eauto. Qed.

Lemma filled_id r : is_Some (VotePrec r) → filled r = r.
Proof. unfold filled. by intros [g ->]. Qed.

Lemma filled_idemp r : filled (filled r) = filled r.
Proof. apply filled_id, filled_is_Some. Qed.

Lemma filled_Precinct r : Precinct (filled r) = Precinct r.
Proof. unfold filled. by destruct (VotePrec r). Qed.

Lemma filled_other_fields r : other_fields (filled r) = other_fields r.
Proof. unfold filled. by destruct (VotePrec r). Qed.

Lemma first_match_None (tbl : table) k : first_match tbl k = None ↔ k ∉ tbl.*1.
Proof. apply (dict_get_None tbl k). Qed.
End FillFacts.

(** * The resolver in terms of the rows *)

Section ResolverFacts.
Variable order : set_order.
Implicit Types (d : dict) (rows : list xref_row) (k v : string).

Lemma search_loop_lookup rows d k :
  search_loop order [] rows = inr d → dict_get d k = last_assignment rows k.
Proof.
  intros Hloop. rewrite (search_loop_get _ _ _ _ _ Hloop). simpl.
  by destruct (last_assignment rows k).
Qed.

Lemma search_loop_closed rows d :
  search_loop order [] rows = inr d → closed d ↔ groups_listed rows.
Proof.
  intros Hloop.
  assert (NoDup d.*1) as Hnd
    by (eapply search_loop_NoDup; [done|apply NoDup_nil_2]).
  unfold closed, groups_listed. rewrite Forall_forall. split.
  - intros Hc k v Hk.
    rewrite <-(search_loop_lookup _ _ k Hloop) in Hk.
    rewrite <-(search_loop_lookup _ _ v Hloop).
    apply (dict_get_elem _ _ _ Hnd) in Hk. by apply Hc in Hk.
  - intros Hg [k v] Hin. simpl.
    apply (dict_get_elem _ _ _ Hnd) in Hin.
    rewrite (search_loop_lookup _ _ k Hloop) in Hin.
    rewrite (search_loop_lookup _ _ v Hloop). by eapply Hg.
Qed.

(** What a completed run leaves in the table: the voting precinct of the
    voting precinct of each regular precinct. *)
Lemma explode_xref_lookup rows tbl k :
  explode_xref order rows [] = (Returned, tbl) →
  dict_get tbl k = last_assignment rows k ≫= last_assignment rows.
Proof.
  destruct (search_loop order [] rows) as [e|d] eqn:Hd.
  - unfold explode_xref. by rewrite Hd.
  - rewrite (explode_xref_result _ _ _ _ Hd). simpl.
    destruct (decide (closed d)) as [Hc|]; [|done]. intros [= <-].
    rewrite (written_lookup _ _ _ Hc), (search_loop_lookup _ _ _ Hd).
    destruct (last_assignment rows k); simpl; [|done].
    by apply search_loop_lookup.
Qed.
End ResolverFacts.

(** * The resolver *)

(** C1, as the code has it: the insert loop writes
    [precincts_1to1[voting_precinct]], not [voting_precinct]. On the rows
    [("V1", "P1 P2"); ("V2", "P3")] the lookup of ["V1"] raises [KeyError],
    so [explode_xref] ends in [sys.exit(208)] with nothing written, whatever
    order the sets are iterated in; the resolved mapping [P1 → V1],
    [P2 → V1], [P3 → V2] is not produced. *)
Theorem explode_xref_looks_up_group (order : set_order) :
  explode_xref order [("V1", Some "P1 P2"); ("V2", Some "P3")] []
  = (SysExit 208, []).
Proof.
  apply (explode_xref_unresolved order _ _ "P1").
  - repeat constructor; by eexists.
  - apply Exists_cons_hd. apply (bool_decide_unpack _). by vm_compute.
  - repeat constructor; apply (bool_decide_unpack _); by vm_compute.
Qed.

(** A run that completes also differs from the dictionary: with two rows
    that name each other the table maps each precinct to itself. *)
Example explode_xref_swaps_back :
  explode_xref first_seen_order [("A", Some "B"); ("B", Some "A")] []
  = (Returned, [("B", "B"); ("A", "A")]).
Proof. by vm_compute. Qed.

(** C3, as the code has it: on the rows [("V1", "P1"); ("V2", "P1")] the
    dictionary built by the search loop does send [P1] to [V2], the voting
    precinct of the last row, but the insert loop then looks up ["V2"] in
    that dictionary, raises [KeyError], and [explode_xref] ends in
    [sys.exit(208)] with nothing written: the resolver fails on the
    conflicting assignment instead of resolving it. *)
Theorem explode_xref_conflict_exits (order : set_order) :
  (∃ d, search_loop order [] [("V1", Some "P1"); ("V2", Some "P1")] = inr d
        ∧ dict_get d "P1" = Some "V2")
  ∧ explode_xref order [("V1", Some "P1"); ("V2", Some "P1")] []
    = (SysExit 208, []).
Proof.
  split.
  - destruct (search_loop_returns order
                [("V1", Some "P1"); ("V2", Some "P1")] []) as [d Hd].
    { repeat constructor; by eexists. }
    exists d. split; [done|].
    rewrite (search_loop_lookup _ _ _ _ Hd). by vm_compute.
  - apply (explode_xref_unresolved order _ _ "P1").
    + repeat constructor; by eexists.
    + apply Exists_cons_hd. apply (bool_decide_unpack _). by vm_compute.
    + repeat constructor; apply (bool_decide_unpack _); by vm_compute.
Qed.

(** C4: when some row of the cross-reference has a null member list, the
    search loop raises on it, [explode_xref] ends in [sys.exit(207)], and
    the exploded table is left exactly as it was: the insert loop never
    starts, so nothing of the dictionary built so far reaches the table. *)
Theorem explode_xref_null_members (order : set_order) (rows : list xref_row)
    (tbl : table) :
  Exists (λ row, row.2 = None) rows →
  explode_xref order rows tbl = (SysExit 207, tbl).
Proof.
  intros Hnull. unfold explode_xref.
  by rewrite (search_loop_raises order rows [] Hnull).
Qed.

Lemma explode_xref_null_members_witness :
  Exists (λ row : xref_row, row.2 = None)
    [("V1", Some "P1 P2"); ("V2", None); ("V3", Some "P3")]
  ∧ explode_xref first_seen_order
      [("V1", Some "P1 P2"); ("V2", None); ("V3", Some "P3")] [("P0", "V0")]
    = (SysExit 207, [("P0", "V0")]).
Proof.
  assert (Exists (λ row : xref_row, row.2 = None)
            [("V1", Some "P1 P2"); ("V2", None); ("V3", Some "P3")]) as Hnull.
  { apply Exists_cons_tl, Exists_cons_hd. reflexivity. }
  split; [exact Hnull|].
  exact (explode_xref_null_members first_seen_order _ _ Hnull).
Defined.

(** C6: a row alone puts one entry per distinct token of its member text
    into the dictionary, each carrying the row's voting precinct, however
    often the token is repeated; the text ["P1 P1 P2"] gives exactly two
    entries, for [P1] and [P2], and when the row's voting precinct is the
    listed [P1] the exploded table receives exactly two rows as well. Over a
    whole table no regular precinct is a key of the dictionary twice, nor
    written to the exploded table twice. *)
Theorem within_row_dedup (order : set_order) :
  (∀ v str, ∃ d, search_row order [] (v, Some str) = inr d
       ∧ d.*1 ≡ₚ remove_dups (split str)
       ∧ Forall (λ item, item.2 = v) d)
  ∧ (∀ v, ∃ d, search_row order [] (v, Some "P1 P1 P2") = inr d
       ∧ length d = 2
       ∧ dict_get d "P1" = Some v ∧ dict_get d "P2" = Some v)
  ∧ (∃ tbl, explode_xref order [("P1", Some "P1 P1 P2")] [] = (Returned, tbl)
       ∧ length tbl = 2
       ∧ dict_get tbl "P1" = Some "P1" ∧ dict_get tbl "P2" = Some "P1")
  ∧ (∀ rows, match search_loop order [] rows with
             | inr d => NoDup d.*1
             | inl _ => True
             end)
  ∧ (∀ rows, NoDup (explode_xref order rows []).2.*1).
Proof.
  assert (∀ v str, ∃ d, search_row order [] (v, Some str) = inr d
       ∧ d.*1 ≡ₚ remove_dups (split str)
       ∧ Forall (λ item, item.2 = v) d) as Hrow.
  { intros v str. eexists. split; [done|].
    rewrite foldl_dict_set_fresh;
      [|apply iter_NoDup|intros x _; apply not_elem_of_nil].
    rewrite app_nil_l, <-list_fmap_compose. split.
    - assert (∀ l : list string, (fst ∘ (λ k, (k, v))) <$> l = l) as ->
        by (intros l; induction l as [|x l IH]; [done|by rewrite fmap_cons, IH]).
      apply NoDup_Permutation.
      + apply iter_NoDup.
      + apply NoDup_remove_dups.
      + intros x. by rewrite iter_elem, elem_of_remove_dups.
    - apply Forall_fmap, Forall_true. done. }
  split_and!.
  - exact Hrow.
  - intros v. destruct (Hrow v "P1 P1 P2") as (d & Hd & Hkeys & _).
    exists d. split_and!; [done| | |].
    + rewrite <-(length_fmap fst), Hkeys. by vm_compute.
    + rewrite (search_row_get _ _ _ _ _ _ Hd). by vm_compute.
    + rewrite (search_row_get _ _ _ _ _ _ Hd). by vm_compute.
  - destruct (Hrow "P1" "P1 P1 P2") as (d & Hd & Hkeys & _).
    assert (search_loop order [] [("P1", Some "P1 P1 P2")] = inr d) as Hloop
      by (cbn [search_loop]; by rewrite Hd).
    assert (closed d) as Hc.
    { apply (search_loop_closed _ _ _ Hloop). intros k v.
      unfold last_assignment at 1. rewrite filter_cons, filter_nil.
      destruct (decide (mentions k ("P1", Some "P1 P1 P2"))); [|done].
      intros [= <-]. exists "P1". by vm_compute. }
    exists (written d d). rewrite (explode_xref_result _ _ _ _ Hloop).
    rewrite decide_True by done. split_and!; [done| | |].
    + rewrite (written_length _ _ Hc).
      rewrite <-(length_fmap fst), Hkeys. by vm_compute.
    + rewrite (written_lookup _ _ _ Hc), (search_loop_lookup _ _ _ _ Hloop).
      replace (last_assignment _ "P1") with (Some "P1") by by vm_compute.
      simpl. rewrite (search_loop_lookup _ _ _ _ Hloop). by vm_compute.
    + rewrite (written_lookup _ _ _ Hc), (search_loop_lookup _ _ _ _ Hloop).
      replace (last_assignment _ "P2") with (Some "P1") by by vm_compute.
      simpl. rewrite (search_loop_lookup _ _ _ _ Hloop). by vm_compute.
  - intros rows. destruct (search_loop order [] rows) as [e|d] eqn:Hd; [done|].
    eapply search_loop_NoDup; [done|apply NoDup_nil_2].
  - apply explode_xref_keys_NoDup.
Qed.

(** C8: the mapping does not depend on the order in which the sets of
    member keys are iterated. For one sequence of rows and any two iteration
    orders, the search loop either raises in both runs or builds
    dictionaries that are equal as maps; [explode_xref] ends with the same
    status in both; and when it returns, the exploded tables are equal as
    maps. *)
Theorem mapping_deterministic (order1 order2 : set_order)
    (rows : list xref_row) :
  match search_loop order1 [] rows, search_loop order2 [] rows with
  | inr d1, inr d2 => dict_to_map d1 = dict_to_map d2
  | inl e1, inl e2 => e1 = e2
  | _, _ => False
  end
  ∧ (explode_xref order1 rows []).1 = (explode_xref order2 rows []).1
  ∧ match explode_xref order1 rows [], explode_xref order2 rows [] with
    | (Returned, tbl1), (Returned, tbl2) => dict_to_map tbl1 = dict_to_map tbl2
    | _, _ => True
    end.
Proof.
  destruct (decide (Exists (λ row : xref_row, row.2 = None) rows))
    as [Hnull|Hsome].
  - unfold explode_xref. by rewrite !search_loop_raises by done.
  - apply not_Exists_Forall in Hsome; [|apply _].
    assert (Forall (λ row : xref_row, is_Some row.2) rows) as Hall.
    { eapply Forall_impl; [exact Hsome|]. simpl. intros row.
      destruct (row.2); [by eexists|done]. }
    destruct (search_loop_returns order1 rows [] Hall) as [d1 Hd1].
    destruct (search_loop_returns order2 rows [] Hall) as [d2 Hd2].
    rewrite Hd1, Hd2.
    rewrite (explode_xref_result _ _ _ _ Hd1), (explode_xref_result _ _ _ _ Hd2).
    pose proof (search_loop_closed _ _ _ Hd1) as Hc1.
    pose proof (search_loop_closed _ _ _ Hd2) as Hc2.
    simpl. split_and!.
    + apply map_eq. intros k. rewrite !dict_to_map_lookup.
      by rewrite (search_loop_lookup _ _ _ _ Hd1), (search_loop_lookup _ _ _ _ Hd2).
    + destruct (decide (closed d1)), (decide (closed d2)); tauto.
    + destruct (decide (closed d1)) as [H1|], (decide (closed d2)) as [H2|];
        try done.
      apply map_eq. intros k. rewrite !dict_to_map_lookup.
      rewrite !written_lookup by done.
      rewrite (search_loop_lookup _ _ _ _ Hd1), (search_loop_lookup _ _ _ _ Hd2).
      destruct (last_assignment rows k) as [v|]; simpl; [|done].
      by rewrite (search_loop_lookup _ _ _ _ Hd1), (search_loop_lookup _ _ _ _ Hd2).
Qed.

(** C9: a row whose member text is the empty string leaves the dictionary
    as it is and raises nothing; a table with such a row resolves exactly as
    the table without it; and on the single row [("V1", "")] [explode_xref]
    returns with the exploded table still empty. *)
Theorem empty_member_list (order : set_order) :
  (∀ d v, search_row order d (v, Some "") = inr d)
  ∧ (∀ rows1 rows2 v tbl,
       explode_xref order (rows1 ++ (v, Some "") :: rows2) tbl
       = explode_xref order (rows1 ++ rows2) tbl)
  ∧ explode_xref order [("V1", Some "")] [] = (Returned, []).
Proof.
  assert (∀ d v, search_row order d (v, Some "") = inr d) as Hrow.
  { intros d v. unfold search_row. cbn [split split_from flush].
    by rewrite iter_of_nil. }
  split_and!.
  - exact Hrow.
  - intros rows1 rows2 v tbl. unfold explode_xref.
    rewrite !search_loop_app.
    destruct (search_loop order [] rows1) as [e|d1]; [done|].
    cbn [search_loop]. by rewrite Hrow.
  - unfold explode_xref. cbn [search_loop]. by rewrite Hrow.
Qed.

(** * Join and fill *)

Section Pipeline.
Context {Attrs : Type}.
Implicit Types (r : precinct_row Attrs) (fc : list (precinct_row Attrs)).

Lemma update_precincts_rows fc : (update_precincts fc).1 = filled <$> fc.
Proof. apply update_loop_rows. Qed.

(** The voting precinct of a row after join and fill depends on its
    regular precinct alone. *)
Lemma filled_join_VotePrec (tbl : table) r :
  VotePrec (filled (PrecinctRow (Precinct r) (first_match tbl (Precinct r))
                      (other_fields r)))
  = Some (default (Precinct r) (first_match tbl (Precinct r))).
Proof. unfold filled. simpl. by destruct (first_match tbl (Precinct r)). Qed.

Lemma join_fill_rows (tbl : table) fc :
  (update_precincts (join_by_field fc tbl)).1
  = (λ r, PrecinctRow (Precinct r)
            (Some (default (Precinct r) (first_match tbl (Precinct r))))
            (other_fields r)) <$> fc.
Proof.
  rewrite update_precincts_rows. unfold join_by_field.
  change (map ?f fc) with (f <$> fc). rewrite <-list_fmap_compose.
  apply list_fmap_ext. intros _ r _. simpl. unfold filled. simpl.
  by destruct (first_match tbl (Precinct r)).
Qed.

Lemma run_tools_Finished (order : set_order) rows fc fc' :
  run_tools order rows fc = Finished fc' →
  ∃ tbl, explode_xref order rows [] = (Returned, tbl)
         ∧ fc' = (update_precincts (join_by_field fc tbl)).1.
Proof.
  unfold run_tools.
  destruct (explode_xref order rows []) as [[|code] tbl]; [|done].
  intros [= <-]. by exists tbl.
Qed.
End Pipeline.

(** C2: after the join followed by the fill every precinct has a voting
    precinct, and a precinct that is no key of the joined table has itself
    as voting precinct, whatever table is joined. In a run of [run_tools]
    that finishes, this holds of every precinct that no member list of the
    cross-reference mentions. *)
Theorem totality_and_fallback {Attrs : Type} (order : set_order)
    (rows : list xref_row) (members fc : list (precinct_row Attrs)) :
  (∀ tbl : table,
     Forall (λ r, is_Some (VotePrec r)
                  ∧ (Precinct r ∉ tbl.*1 → VotePrec r = Some (Precinct r)))
            (update_precincts (join_by_field members tbl)).1)
  ∧ (run_tools order rows members = Finished fc →
     Forall (λ r, is_Some (VotePrec r)
                  ∧ (¬ Exists (mentions (Precinct r)) rows →
                     VotePrec r = Some (Precinct r))) fc).
Proof.
  assert (∀ tbl : table,
     Forall (λ r, is_Some (VotePrec r)
                  ∧ (Precinct r ∉ tbl.*1 → VotePrec r = Some (Precinct r)))
            (update_precincts (join_by_field members tbl)).1) as Hjoin.
  { intros tbl. rewrite join_fill_rows. apply Forall_fmap, Forall_true.
    intros r. simpl. split; [by eexists|].
    intros Hr%first_match_None. by rewrite Hr. }
  split; [exact Hjoin|].
  intros (tbl & Htbl & ->)%run_tools_Finished.
  eapply Forall_impl; [apply (Hjoin tbl)|]. simpl.
  intros r [Hsome Hfall]. split; [done|]. intros Hno. apply Hfall.
  apply dict_get_None. rewrite (explode_xref_lookup _ _ _ _ Htbl).
  destruct (last_assignment rows (Precinct r)) eqn:Hl; [|done].
  destruct Hno. apply last_assignment_is_Some. by eexists.
Qed.

Lemma totality_and_fallback_witness :
  run_tools first_seen_order [("P1", Some "P1 P2"); ("P3", Some "P3")]
    [PrecinctRow "P1" None (); PrecinctRow "P2" None ();
     PrecinctRow "P3" None (); PrecinctRow "P4" None ()]
  = Finished
      [PrecinctRow "P1" (Some "P1") (); PrecinctRow "P2" (Some "P1") ();
       PrecinctRow "P3" (Some "P3") (); PrecinctRow "P4" (Some "P4") ()]
  ∧ Forall (λ r : precinct_row (),
              is_Some (VotePrec r)
              ∧ (¬ Exists (mentions (Precinct r))
                     [("P1", Some "P1 P2"); ("P3", Some "P3")] →
                 VotePrec r = Some (Precinct r)))
      [PrecinctRow "P1" (Some "P1") (); PrecinctRow "P2" (Some "P1") ();
       PrecinctRow "P3" (Some "P3") (); PrecinctRow "P4" (Some "P4") ()].
Proof.
  split; [vm_compute; reflexivity|].
  apply (totality_and_fallback first_seen_order
           [("P1", Some "P1 P2"); ("P3", Some "P3")]
           [PrecinctRow "P1" None (); PrecinctRow "P2" None ();
            PrecinctRow "P3" None (); PrecinctRow "P4" None ()]).
  vm_compute; reflexivity.
Defined.

(** C5, as stated, fails: a member dataset in which [P1] occurs twice is
    not rejected. [run_tools] joins and fills it, and finishes. *)
Lemma duplicate_member_key_not_rejected :
  ¬ NoDup (Precinct <$>
             [PrecinctRow "P1" None (); PrecinctRow "P1" None ();
              PrecinctRow "P2" None ()])
  ∧ run_tools first_seen_order [("P2", Some "P2 P3")]
      [PrecinctRow "P1" None (); PrecinctRow "P1" None ();
       PrecinctRow "P2" None ()]
    = Finished
        [PrecinctRow "P1" (Some "P1") (); PrecinctRow "P1" (Some "P1") ();
         PrecinctRow "P2" (Some "P2") ()].
Proof.
  split; [|vm_compute; reflexivity].
  simpl. intros Hnd. apply NoDup_cons in Hnd as [Hnin _].
  apply Hnin, elem_of_cons. by left.
Qed.

(** C5, amended: the member dataset is never validated. [run_tools] aborts
    exactly when [explode_xref] exits, with its status, whatever the member
    dataset is; in a run that finishes, the join and the fill have kept every
    row with its regular precinct, repeated or not, and two rows with the
    same regular precinct have the same voting precinct. *)
Theorem duplicate_member_keys_joined {Attrs : Type} (order : set_order)
    (rows : list xref_row) (members : list (precinct_row Attrs)) :
  (∀ code, run_tools order rows members = Aborted code
           ↔ (explode_xref order rows []).1 = SysExit code)
  ∧ (∀ fc, run_tools order rows members = Finished fc →
       Precinct <$> fc = Precinct <$> members
       ∧ ∀ r1 r2, r1 ∈ fc → r2 ∈ fc →
           Precinct r1 = Precinct r2 → VotePrec r1 = VotePrec r2).
Proof.
  split.
  - intros code. unfold run_tools.
    destruct (explode_xref order rows []) as [[|code'] tbl]; simpl.
    + split; intros [=].
    + split; intros [= ->]; done.
  - intros fc (tbl & Htbl & ->)%run_tools_Finished.
    rewrite join_fill_rows. split.
    + rewrite <-list_fmap_compose. by apply list_fmap_ext.
    + intros r1 r2 (m1 & -> & _)%list_elem_of_fmap
        (m2 & -> & _)%list_elem_of_fmap. simpl. by intros ->.
Qed.

Lemma duplicate_member_keys_joined_witness :
  run_tools first_seen_order [("P2", Some "P2 P3")]
    [PrecinctRow "P1" None (); PrecinctRow "P1" None ();
     PrecinctRow "P2" None ()]
  = Finished
      [PrecinctRow "P1" (Some "P1") (); PrecinctRow "P1" (Some "P1") ();
       PrecinctRow "P2" (Some "P2") ()]
  ∧ Precinct <$>
      [PrecinctRow "P1" (Some "P1") (); PrecinctRow "P1" (Some "P1") ();
       PrecinctRow "P2" (Some "P2") ()]
    = Precinct <$>
        [PrecinctRow "P1" None (); PrecinctRow "P1" None ();
         PrecinctRow "P2" None ()].
Proof.
  split; [vm_compute; reflexivity|].
  apply (proj2 (duplicate_member_keys_joined first_seen_order
                  [("P2", Some "P2 P3")]
                  [PrecinctRow "P1" None (); PrecinctRow "P1" None ();
                   PrecinctRow "P2" None ()])).
  vm_compute; reflexivity.
Defined.

(** C7: running [update_precincts] on the feature class it has just updated
    gives back that feature class, with no row updated; and on a feature
    class in which every precinct already has a voting precinct it changes
    nothing and counts nothing. *)
Theorem fill_idempotent {Attrs : Type} (fc : list (precinct_row Attrs)) :
  update_precincts (update_precincts fc).1 = ((update_precincts fc).1, 0)
  ∧ (Forall (λ r, is_Some (VotePrec r)) fc → update_precincts fc = (fc, 0)).
Proof.
  assert (∀ fc' : list (precinct_row Attrs),
            Forall (λ r, is_Some (VotePrec r)) fc' →
            update_precincts fc' = (fc', 0)) as Hfull.
  { intros fc' Hall.
    rewrite (surjective_pairing (update_precincts fc')).
    rewrite update_precincts_rows. unfold update_precincts.
    rewrite update_loop_count. f_equal.
    - induction Hall as [|r fc'' Hr Hall IH]; [done|].
      by rewrite fmap_cons, IH, filled_id.
    - induction Hall as [|r fc'' [g Hr] Hall IH]; [done|].
      rewrite filter_cons, decide_False; [done|]. by rewrite Hr. }
  split; [|apply Hfull].
  apply Hfull. rewrite update_precincts_rows.
  apply Forall_fmap, Forall_true. intros r. apply filled_is_Some.
Qed.

Lemma fill_idempotent_witness :
  Forall (λ r : precinct_row nat, is_Some (VotePrec r))
    [PrecinctRow "P1" (Some "V1") 1; PrecinctRow "P2" (Some "P2") 2]
  ∧ update_precincts
      [PrecinctRow "P1" (Some "V1") 1; PrecinctRow "P2" (Some "P2") 2]
    = ([PrecinctRow "P1" (Some "V1") 1; PrecinctRow "P2" (Some "P2") 2], 0).
Proof.
  assert (Forall (λ r : precinct_row nat, is_Some (VotePrec r))
    [PrecinctRow "P1" (Some "V1") 1; PrecinctRow "P2" (Some "P2") 2]) as Hall.
  { repeat constructor; simpl; eexists; reflexivity. }
  split; [exact Hall|].
  exact (proj2 (fill_idempotent _) Hall).
Defined.

(** C10: [update_precincts] keeps the rows of the feature class in place,
    one for one. A row that has a voting precinct is returned as it is; a row
    that has none gets its own regular precinct as voting precinct and keeps
    everything else. So the number of rows, the column of regular precincts
    and the remaining attributes are those of the input, and the count
    printed is the number of rows that had no voting precinct. *)
Theorem fill_frame {Attrs : Type} (fc : list (precinct_row Attrs)) :
  length (update_precincts fc).1 = length fc
  ∧ Precinct <$> (update_precincts fc).1 = Precinct <$> fc
  ∧ other_fields <$> (update_precincts fc).1 = other_fields <$> fc
  ∧ Forall2 (λ r r',
       match VotePrec r with
       | Some _ => r' = r
       | None => r' = PrecinctRow (Precinct r) (Some (Precinct r))
                        (other_fields r)
       end) fc (update_precincts fc).1
  ∧ (update_precincts fc).2 = length (filter (λ r, VotePrec r = None) fc).
Proof.
  rewrite update_precincts_rows. split_and!.
  - apply length_fmap.
  - rewrite <-list_fmap_compose. apply list_fmap_ext.
    intros _ r _. apply filled_Precinct.
  - rewrite <-list_fmap_compose. apply list_fmap_ext.
    intros _ r _. apply filled_other_fields.
  - apply Forall2_fmap_r, Forall_Forall2_diag, Forall_true.
    intros r. simpl. unfold filled. by destruct (VotePrec r).
  - unfold update_precincts. by rewrite update_loop_count.
Qed.

(** * Further properties of [explode_xref] *)

Lemma not_null_is_Some (rows : list xref_row) :
  ¬ Exists (λ row, row.2 = None) rows → Forall (λ row, is_Some row.2) rows.
Proof.
  intros Hno. apply Forall_forall. intros row Hin.
  destruct (row.2) eqn:Hrow; [by eexists|].
  destruct Hno. apply Exists_exists. by exists row.
Qed.

Lemma is_Some_not_null (rows : list xref_row) :
  Forall (λ row, is_Some row.2) rows → ¬ Exists (λ row, row.2 = None) rows.
Proof.
  rewrite Forall_forall, Exists_exists. intros Hall (row & Hin & Hnone).
  apply Hall in Hin as [str Hstr]. congruence.
Qed.

Lemma explode_xref_Returned_inv (order : set_order) (rows : list xref_row)
    (tbl0 tbl : table) :
  explode_xref order rows tbl0 = (Returned, tbl) →
  ∃ d, search_loop order [] rows = inr d ∧ closed d ∧ tbl = tbl0 ++ written d d.
Proof.
  destruct (search_loop order [] rows) as [e|d] eqn:Hd.
  - unfold explode_xref. by rewrite Hd.
  - rewrite (explode_xref_result _ _ _ _ Hd).
    destruct (decide (closed d)); [|done]. intros [= <-]. by exists d.
Qed.

(** X1: over a cross-reference without null member lists the search loop
    completes, and the dictionary it builds has every regular precinct once,
    has exactly the tokens of the member lists as keys, and gives each the
    voting precinct of the last row that lists it. *)
Theorem dictionary_last_write_wins (order : set_order) (rows : list xref_row) :
  Forall (λ row, is_Some row.2) rows →
  ∃ d, search_loop order [] rows = inr d
       ∧ NoDup d.*1
       ∧ (∀ k, k ∈ d.*1 ↔ Exists (mentions k) rows)
       ∧ (∀ k, dict_get d k = last_assignment rows k).
Proof.
  intros Hall. destruct (search_loop_returns order rows [] Hall) as [d Hd].
  exists d. split_and!; [done| | |].
  - eapply search_loop_NoDup; [done|apply NoDup_nil_2].
  - intros k. by apply (search_loop_keys order).
  - intros k. by apply (search_loop_lookup order).
Qed.

Lemma dictionary_last_write_wins_witness :
  Forall (λ row : xref_row, is_Some row.2)
    [("V1", Some "P1 P2"); ("V2", Some "P2  P3"); ("V3", Some "")]
  ∧ ∃ d, search_loop first_seen_order []
           [("V1", Some "P1 P2"); ("V2", Some "P2  P3"); ("V3", Some "")]
         = inr d
       ∧ NoDup d.*1
       ∧ (∀ k, k ∈ d.*1 ↔ Exists (mentions k)
            [("V1", Some "P1 P2"); ("V2", Some "P2  P3"); ("V3", Some "")])
       ∧ (∀ k, dict_get d k = last_assignment
            [("V1", Some "P1 P2"); ("V2", Some "P2  P3"); ("V3", Some "")] k).
Proof.
  assert (Forall (λ row : xref_row, is_Some row.2)
    [("V1", Some "P1 P2"); ("V2", Some "P2  P3"); ("V3", Some "")]) as Hall.
  { repeat constructor; simpl; eexists; reflexivity. }
  split; [exact Hall|].
  exact (dictionary_last_write_wins first_seen_order _ Hall).
Defined.

(** X2: how [explode_xref] ends. It exits with status 207 exactly when some
    member list is null; otherwise it returns exactly when every voting
    precinct that is assigned is itself listed as a regular precinct, and
    exits with status 208 when one is not. *)
Theorem explode_xref_status (order : set_order) (rows : list xref_row)
    (tbl : table) :
  ((explode_xref order rows tbl).1 = SysExit 207
   ↔ Exists (λ row, row.2 = None) rows)
  ∧ ((explode_xref order rows tbl).1 = Returned
     ↔ Forall (λ row, is_Some row.2) rows ∧ groups_listed rows)
  ∧ ((explode_xref order rows tbl).1 = SysExit 208
     ↔ Forall (λ row, is_Some row.2) rows ∧ ¬ groups_listed rows).
Proof.
  destruct (decide (Exists (λ row : xref_row, row.2 = None) rows))
    as [Hnull|Hsome].
  - unfold explode_xref. rewrite (search_loop_raises order rows [] Hnull).
    simpl. split_and!.
    + done.
    + split; [done|]. intros [Hall _]. by apply is_Some_not_null in Hall.
    + split; [done|]. intros [Hall _]. by apply is_Some_not_null in Hall.
  - pose proof (not_null_is_Some _ Hsome) as Hall.
    destruct (search_loop_returns order rows [] Hall) as [d Hd].
    rewrite (explode_xref_result _ _ _ _ Hd). simpl.
    pose proof (search_loop_closed _ _ _ Hd) as Hc.
    destruct (decide (closed d)) as [Hd'|Hd']; split_and!.
    + split; [done|]. by intros ?.
    + split; [intros _; split; tauto|done].
    + split; [done|]. intros [_ ?]. tauto.
    + split; [done|]. by intros ?.
    + split; [done|]. intros [_ ?]. tauto.
    + split; [intros _; split; tauto|done].
Qed.

(** X3: what a run that returns has put into the empty exploded table: one
    row for each regular precinct listed in the cross-reference, and no
    other; the value in the row of [k] is the voting precinct assigned to
    the voting precinct of [k]. *)
Theorem explode_xref_table (order : set_order) (rows : list xref_row)
    (tbl : table) :
  explode_xref order rows [] = (Returned, tbl) →
  NoDup tbl.*1
  ∧ (∀ k, k ∈ tbl.*1 ↔ Exists (mentions k) rows)
  ∧ (∀ k, dict_get tbl k = last_assignment rows k ≫= last_assignment rows).
Proof.
  intros Hret.
  pose proof (explode_xref_keys_NoDup order rows) as Hnd.
  pose proof (explode_xref_lookup order rows tbl) as Hlook.
  rewrite Hret in Hnd. simpl in Hnd.
  split_and!; [done| |by intros k; apply Hlook].
  intros k. rewrite <-dict_get_is_Some, (Hlook k Hret).
  rewrite <-last_assignment_is_Some.
  apply explode_xref_Returned_inv in Hret as (d & Hd & Hc & _).
  apply (search_loop_closed _ _ _ Hd) in Hc.
  destruct (last_assignment rows k) as [v|] eqn:Hk; simpl.
  - split; [by eexists|]. intros _. by eapply Hc.
  - done.
Qed.

Lemma explode_xref_table_witness :
  explode_xref first_seen_order
    [("P1", Some "P1 P2"); ("P2", Some "P3")] []
  = (Returned, [("P1", "P1"); ("P2", "P1"); ("P3", "P1")])
  ∧ NoDup [("P1", "P1"); ("P2", "P1"); ("P3", "P1")].*1.
Proof.
  split; [vm_compute; reflexivity|].
  apply (explode_xref_table first_seen_order
           [("P1", Some "P1 P2"); ("P2", Some "P3")]).
  vm_compute; reflexivity.
Defined.

(** X4: when no member list is null and every voting precinct of the
    cross-reference is last listed in its own row, [explode_xref] returns and
    the exploded table is the dictionary: each listed regular precinct is
    paired with the voting precinct of the last row that lists it. *)
Theorem explode_xref_self_listed (order : set_order) (rows : list xref_row) :
  Forall (λ row, is_Some row.2) rows →
  Forall (λ row, last_assignment rows row.1 = Some row.1) rows →
  ∃ tbl, explode_xref order rows [] = (Returned, tbl)
         ∧ ∀ k, dict_get tbl k = last_assignment rows k.
Proof.
  intros Hall Hself.
  destruct (search_loop_returns order rows [] Hall) as [d Hd].
  assert (∀ k v, last_assignment rows k = Some v →
                 last_assignment rows v = Some v) as Hfix.
  { intros k v Hk. unfold last_assignment in Hk.
    destruct (last (filter (mentions k) rows)) as [row|] eqn:Hlast;
      simpl in Hk; [|done].
    injection Hk as <-.
    apply last_Some_elem_of, list_elem_of_filter in Hlast as [_ Hrow].
    rewrite Forall_forall in Hself. by apply Hself. }
  assert (closed d) as Hc.
  { apply (search_loop_closed _ _ _ Hd). intros k v Hk.
    rewrite (Hfix _ _ Hk). by eexists. }
  exists (written d d). rewrite (explode_xref_result _ _ _ _ Hd).
  rewrite decide_True by done. split; [done|]. intros k.
  rewrite (written_lookup _ _ _ Hc), (search_loop_lookup _ _ _ _ Hd).
  destruct (last_assignment rows k) as [v|] eqn:Hk; simpl; [|done].
  rewrite (search_loop_lookup _ _ _ _ Hd). by eapply Hfix.
Qed.

Lemma explode_xref_self_listed_witness :
  Forall (λ row : xref_row, is_Some row.2)
    [("P1", Some "P1 P2"); ("P3", Some "P3")]
  ∧ Forall (λ row : xref_row,
       last_assignment [("P1", Some "P1 P2"); ("P3", Some "P3")] row.1
       = Some row.1)
      [("P1", Some "P1 P2"); ("P3", Some "P3")]
  ∧ ∃ tbl, explode_xref first_seen_order
             [("P1", Some "P1 P2"); ("P3", Some "P3")] [] = (Returned, tbl)
         ∧ ∀ k, dict_get tbl k
                = last_assignment [("P1", Some "P1 P2"); ("P3", Some "P3")] k.
Proof.
  assert (Forall (λ row : xref_row, is_Some row.2)
    [("P1", Some "P1 P2"); ("P3", Some "P3")]) as Hall.
  { repeat constructor; simpl; eexists; reflexivity. }
  assert (Forall (λ row : xref_row,
       last_assignment [("P1", Some "P1 P2"); ("P3", Some "P3")] row.1
       = Some row.1)
      [("P1", Some "P1 P2"); ("P3", Some "P3")]) as Hself.
  { repeat constructor; vm_compute; reflexivity. }
  split; [exact Hall|]. split; [exact Hself|].
  exact (explode_xref_self_listed first_seen_order _ Hall Hself).
Defined.

(** X5: [explode_xref] only appends to the exploded table. Whatever the
    table holds beforehand is still there, unchanged and in front, also when
    the run exits; and the rows appended are those a run on the empty table
    writes. *)
Theorem explode_xref_appends (order : set_order) (rows : list xref_row)
    (tbl : table) :
  (explode_xref order rows tbl).2 = tbl ++ (explode_xref order rows []).2
  ∧ (explode_xref order rows tbl).1 = (explode_xref order rows []).1.
Proof.
  destruct (search_loop order [] rows) as [e|d] eqn:Hd.
  - unfold explode_xref. rewrite Hd. simpl. by rewrite app_nil_r.
  - by rewrite !(explode_xref_result _ _ _ _ Hd).
Qed.

(** ** Tokens *)

Lemma no_space_nil : no_space "".
Proof. constructor. Qed.

Lemma no_space_snoc (cur : string) (c : ascii) :
  no_space cur → isspace c = false → no_space (cur +:+ String c "").
Proof.
  unfold no_space. induction cur as [|c0 cur IH]; simpl.
  - intros _ Hc. by repeat constructor.
  - intros [Hc0 Hcur]%Forall_cons Hc. constructor; [done|]. by apply IH.
Qed.

Lemma snoc_not_empty (cur : string) (c : ascii) : cur +:+ String c "" ≠ "".
Proof. by destruct cur. Qed.

Lemma split_from_tokens (cur s : string) :
  no_space cur →
  Forall (λ t, t ≠ "" ∧ no_space t) (split_from cur s).
Proof.
  assert (∀ cur0, no_space cur0 →
            Forall (λ t, t ≠ "" ∧ no_space t) (flush cur0)) as Hflush.
  { intros [|c0 cur0] Hcur0; simpl; constructor; [|constructor]. by split. }
  revert cur. induction s as [|c s IH]; intros cur Hcur; simpl.
  - by apply Hflush.
  - destruct (isspace c) eqn:Hc.
    + apply Forall_app. split; [by apply Hflush|apply IH, no_space_nil].
    + apply IH. by apply no_space_snoc.
Qed.

(** X6: every regular precinct written to the exploded table is a token of
    some member list: it is not the empty text, it contains no whitespace,
    and some row of the cross-reference lists it; and the value written with
    it is a voting precinct of the cross-reference. This holds of the rows
    written before an exit as well. *)
Theorem exploded_rows_are_tokens (order : set_order) (rows : list xref_row) :
  Forall (λ row, row.1 ≠ "" ∧ no_space row.1
                 ∧ Exists (mentions row.1) rows
                 ∧ row.2 ∈ rows.*1)
         (explode_xref order rows []).2.
Proof.
  destruct (search_loop order [] rows) as [e|d] eqn:Hd.
  - unfold explode_xref. rewrite Hd. constructor.
  - rewrite (explode_xref_result _ _ _ _ Hd). simpl.
    assert (NoDup d.*1) as Hnd
      by (eapply search_loop_NoDup; [done|apply NoDup_nil_2]).
    assert (∀ items, items ⊆ d →
              Forall (λ row, Exists (mentions row.1) rows ∧ row.2 ∈ rows.*1)
                     (written d items)) as Hw.
    { induction items as [|[k v] items IH]; intros Hsub; simpl;
        [constructor|].
      destruct (dict_get d v) as [g|] eqn:Hv; [|constructor].
      constructor.
      - simpl. split.
        + apply (search_loop_keys _ _ _ _ Hd).
          apply list_elem_of_fmap. exists (k, v). split; [done|].
          apply Hsub, elem_of_cons. by left.
        + apply (dict_get_elem _ _ _ Hnd) in Hv.
          by apply (search_loop_values _ _ _ _ _ Hd) in Hv.
      - apply IH. intros x Hx. apply Hsub, elem_of_cons. by right. }
    eapply Forall_impl; [by apply Hw|]. simpl.
    intros [k g] [Hm Hg]. simpl in *. split_and!; [| |done|done].
    + apply Exists_exists in Hm as ([v [str|]] & _ & Hm); [|done].
      unfold mentions in Hm. simpl in Hm.
      pose proof (split_from_tokens "" str no_space_nil) as Htok.
      rewrite Forall_forall in Htok. by apply Htok in Hm as [? _].
    + apply Exists_exists in Hm as ([v [str|]] & _ & Hm); [|done].
      unfold mentions in Hm. simpl in Hm.
      pose proof (split_from_tokens "" str no_space_nil) as Htok.
      rewrite Forall_forall in Htok. by apply Htok in Hm as [_ ?].
Qed.

Lemma append_empty_r (s : string) : s +:+ "" = s.
Proof.
  induction s as [|c s IH]; [done|].
  change (String c s +:+ "") with (String c (s +:+ "")). by rewrite IH.
Qed.

Lemma append_snoc (cur t : string) (c : ascii) :
  (cur +:+ String c "") +:+ t = cur +:+ String c t.
Proof.
  induction cur as [|c0 cur IH]; [done|].
  change ((String c0 cur +:+ String c "") +:+ t)
    with (String c0 ((cur +:+ String c "") +:+ t)).
  by rewrite IH.
Qed.

(** Reading a token that is followed by [rest]. *)
Lemma split_from_token (cur t rest : string) :
  no_space t → split_from cur (t +:+ rest) = split_from (cur +:+ t) rest.
Proof.
  unfold no_space. revert cur. induction t as [|c t IH]; intros cur Ht.
  - change ("" +:+ rest) with rest. by rewrite append_empty_r.
  - change (String c t +:+ rest) with (String c (t +:+ rest)).
    apply Forall_cons in Ht as [Hc Ht]. cbn [split_from].
    rewrite Hc, IH by done. by rewrite append_snoc.
Qed.

(** Reading a run of whitespace that is followed by [rest]. *)
Lemma split_from_separator (cur sep rest : string) (c : ascii) :
  isspace c = true →
  Forall (λ c, isspace c = true) (list_ascii_of_string sep) →
  split_from cur (String c sep +:+ rest) = flush cur ++ split_from "" rest.
Proof.
  revert cur c. induction sep as [|c' sep IH]; intros cur c Hc Hsep.
  - change (String c "" +:+ rest) with (String c rest).
    cbn [split_from]. by rewrite Hc.
  - change (String c (String c' sep) +:+ rest)
      with (String c (String c' sep +:+ rest)).
    apply Forall_cons in Hsep as [Hc' Hsep]. cbn [split_from]. rewrite Hc.
    f_equal. by rewrite (IH "" c').
Qed.

(** X7: how a member list is read. A text made of tokens, none empty and
    none containing whitespace, joined by a separator that is a non-empty
    run of whitespace, is split into exactly those tokens, in their order
    and with their repetitions. *)
Theorem split_concat (c : ascii) (sep : string) (tokens : list string) :
  isspace c = true →
  Forall (λ c, isspace c = true) (list_ascii_of_string sep) →
  Forall (λ t, t ≠ "" ∧ no_space t) tokens →
  split (String.concat (String c sep) tokens) = tokens.
Proof.
  intros Hc Hsep. unfold split.
  induction 1 as [|t tokens [Hne Ht] Htokens IH]; [done|].
  destruct tokens as [|t2 tokens].
  - cbn [String.concat]. rewrite <-(append_empty_r t) at 1.
    rewrite split_from_token by done. simpl. by destruct t.
  - cbn [String.concat] in *. rewrite split_from_token by done.
    rewrite split_from_separator by done. rewrite IH. simpl.
    by destruct t.
Qed.

Lemma split_concat_witness :
  isspace " " = true
  ∧ Forall (λ c, isspace c = true) (list_ascii_of_string (String "009" ""))
  ∧ Forall (λ t, t ≠ "" ∧ no_space t) ["P1"; "P1"; "P2"]
  ∧ split (String.concat (String " " (String "009" "")) ["P1"; "P1"; "P2"])
    = ["P1"; "P1"; "P2"].
Proof.
  assert (Forall (λ c, isspace c = true)
            (list_ascii_of_string (String "009" ""))) as Hsep
    by (repeat constructor).
  assert (Forall (λ t, t ≠ "" ∧ no_space t) ["P1"; "P1"; "P2"]) as Htok
    by (repeat constructor; discriminate).
  split; [reflexivity|]. split; [exact Hsep|]. split; [exact Htok|].
  exact (split_concat " " _ _ eq_refl Hsep Htok).
Defined.

(** * Further properties of the pipeline *)



(** X9: the number of rows [update_precincts] reports as updated after the
    join is the number of precincts whose regular precinct is no key of the
    joined table; together with the precincts that are keys they make up the
    whole feature class. *)
Theorem update_count_after_join {Attrs : Type} (tbl : table)
    (members : list (precinct_row Attrs)) :
  (update_precincts (join_by_field members tbl)).2
  = length (filter (λ r, Precinct r ∉ tbl.*1) members)
  ∧ (update_precincts (join_by_field members tbl)).2
    + length (filter (λ r, Precinct r ∈ tbl.*1) members)
    = length members.
Proof.
  assert ((update_precincts (join_by_field members tbl)).2
          = length (filter (λ r, Precinct r ∉ tbl.*1) members)) as Hcount.
  { unfold update_precincts. rewrite update_loop_count. simpl.
    unfold join_by_field. induction members as [|r members IH]; [done|].
    cbn [map]. rewrite !filter_cons. simpl.
    destruct (first_match tbl (Precinct r)) as [g|] eqn:Hg.
    - rewrite decide_False by done.
      rewrite (decide_False (P:=Precinct r ∉ tbl.*1)); [done|].
      intros Hnin%first_match_None. congruence.
    - rewrite decide_True by done.
      rewrite (decide_True (P:=Precinct r ∉ tbl.*1));
        [|by apply first_match_None].
      simpl. by rewrite IH. }
  split; [done|]. rewrite Hcount. clear Hcount.
  induction members as [|r members IH]; [done|].
  rewrite !filter_cons.
  destruct (decide (Precinct r ∈ tbl.*1)) as [Hin|Hnin].
  - rewrite decide_False by (intros ?; done). simpl. lia.
  - rewrite decide_True by done. simpl. lia.
Qed.

(** * Properties of [copy_field] *)

Section CopyFieldFacts.
Context `{Countable K} {V Attrs : Type}.
Implicit Types (from_fc : list (K * V)) (to_fc : list (target_row K V Attrs)).
Implicit Types (r : target_row K V Attrs) (k : K).

Lemma foldl_insert_lookup from_fc (m : gmap K V) k :
  foldl (λ d row, <[row.1 := row.2]> d) m from_fc !! k
  = match last (filter (λ row, row.1 = k) from_fc) with
    | Some row => Some row.2
    | None => m !! k
    end.
Proof.
  revert m. induction from_fc as [|[k0 v0] from_fc IH]; intros m; [done|].
  cbn [foldl]. rewrite IH, filter_cons. simpl.
  destruct (decide (k0 = k)) as [->|Hne].
  - rewrite last_cons. destruct (last (filter _ from_fc)); [done|].
    by rewrite lookup_insert_eq.
  - destruct (last (filter _ from_fc)); [done|].
    by rewrite lookup_insert_ne.
Qed.

Lemma from_values_lookup from_fc k :
  from_values from_fc !! k
  = snd <$> last (filter (λ row, row.1 = k) from_fc).
Proof.
  unfold from_values. rewrite foldl_insert_lookup.
  by destruct (last (filter _ from_fc)).
Qed.

Lemma from_values_None from_fc k :
  from_values from_fc !! k = None ↔ k ∉ from_fc.*1.
Proof.
  rewrite from_values_lookup, fmap_None, last_None. split.
  - intros Hnil (row & -> & Hin)%list_elem_of_fmap.
    assert (row ∈ filter (λ row', row'.1 = row.1) from_fc) as Hf
      by by apply list_elem_of_filter.
    rewrite Hnil in Hf. by apply not_elem_of_nil in Hf.
  - intros Hnin.
    destruct (filter (λ row, row.1 = k) from_fc) as [|row l] eqn:Hf; [done|].
    assert (row ∈ filter (λ row, row.1 = k) from_fc) as Hrow
      by (rewrite Hf; apply elem_of_cons; by left).
    apply list_elem_of_filter in Hrow as [<- Hin].
    destruct Hnin. apply list_elem_of_fmap. by exists row.
Qed.

Lemma copy_row_eq (d : gmap K V) r :
  copy_row d r
  = TargetRow (to_key r) (default (to_field r) (d !! to_key r)) (to_rest r).
Proof. unfold copy_row. simpl. by destruct (d !! to_key r). Qed.

(** X10: after [copy_field] every row of the target keeps its key; its field
    holds the value of the last row of the source that has the same key, and
    its old value when the source has no such row. When several source rows
    share a key the last one read wins. *)
Theorem copy_field_values from_fc to_fc :
  copy_field from_fc to_fc
  = (λ r, TargetRow (to_key r)
            (default (to_field r)
               (snd <$> last (filter (λ row, row.1 = to_key r) from_fc)))
            (to_rest r)) <$> to_fc.
Proof.
  unfold copy_field. change (map ?f to_fc) with (f <$> to_fc).
  apply list_fmap_ext. intros _ r _.
  by rewrite copy_row_eq, from_values_lookup.
Qed.

(** X11: [copy_field] adds and removes no row of the target and keeps the
    rows in place; it changes no key and no attribute other than the field
    it copies to; and a row whose key does not occur in the source is left
    exactly as it was. *)
Theorem copy_field_frame from_fc to_fc :
  length (copy_field from_fc to_fc) = length to_fc
  ∧ to_key <$> copy_field from_fc to_fc = to_key <$> to_fc
  ∧ to_rest <$> copy_field from_fc to_fc = to_rest <$> to_fc
  ∧ Forall2 (λ r r', to_key r ∉ from_fc.*1 → r' = r)
            to_fc (copy_field from_fc to_fc).
Proof.
  unfold copy_field. change (map ?f to_fc) with (f <$> to_fc). split_and!.
  - apply length_fmap.
  - rewrite <-list_fmap_compose. apply list_fmap_ext. intros _ r _.
    unfold compose. by rewrite copy_row_eq.
  - rewrite <-list_fmap_compose. apply list_fmap_ext. intros _ r _.
    unfold compose. by rewrite copy_row_eq.
  - apply Forall2_fmap_r, Forall_Forall2_diag, Forall_true.
    intros r Hnin%from_values_None. unfold compose.
    rewrite copy_row_eq, Hnin. by destruct r.
Qed.

(** X12: copying once more from the same source changes nothing. *)
Theorem copy_field_idempotent from_fc to_fc :
  copy_field from_fc (copy_field from_fc to_fc) = copy_field from_fc to_fc.
Proof.
  unfold copy_field. change (map ?f ?l) with (f <$> l).
  rewrite <-list_fmap_compose. apply list_fmap_ext. intros _ r _.
  unfold compose. rewrite !copy_row_eq. simpl.
  by destruct (from_values from_fc !! to_key r).
Qed.

(** X13: copying from a source read in two parts, first the rows of the one
    and then those of the other, is copying from the first part and then
    from the second: where both have a key the later part decides. *)
Theorem copy_field_app (from1 from2 : list (K * V)) to_fc :
  copy_field (from1 ++ from2) to_fc
  = copy_field from2 (copy_field from1 to_fc).
Proof.
  unfold copy_field. change (map ?f ?l) with (f <$> l).
  rewrite <-list_fmap_compose. apply list_fmap_ext. intros _ r _.
  unfold compose. rewrite !copy_row_eq. simpl. f_equal.
  rewrite !from_values_lookup, filter_app, last_app.
  by destruct (last (filter _ from2)).
Qed.
End CopyFieldFacts.

(** * Properties of the file move of [santa_cruz_sanitation.py] *)

Section MoveFacts.
#[local] Set Warnings "-clear-no-such-hyp".
Implicit Types (st : move_state) (l cursor : list (Z * string)).
Implicit Types (old new : gset string).

Lemma move_row_union st row :
  old_files (move_row st row) ∪ new_files (move_row st row)
  = old_files st ∪ new_files st.
Proof.
  destruct row as [i f]. unfold move_row.
  destruct (bool_decide (f ∈ old_files st)) eqn:Ho;
    destruct (bool_decide (f ∈ new_files st)) eqn:Hn; simpl; try done.
  apply bool_decide_eq_true in Ho. apply bool_decide_eq_false in Hn.
  apply set_eq. intros x. set_unfold.
  destruct (decide (x = f)) as [->|]; naive_solver.
Qed.

Lemma move_loop_union l st :
  old_files (foldl move_row st l) ∪ new_files (foldl move_row st l)
  = old_files st ∪ new_files st.
Proof.
  revert st. induction l as [|row l IH]; intros st; [done|].
  cbn [foldl]. by rewrite IH, move_row_union.
Qed.

Lemma move_loop_dirs l st :
  new_files (foldl move_row st l)
  = new_files st ∪ (old_files st ∩ list_to_set l.*2)
  ∧ old_files (foldl move_row st l)
    = old_files st ∖ (list_to_set l.*2 ∖ new_files st).
Proof.
  revert st. induction l as [|[i f] l IH]; intros st.
  - simpl. split; set_solver.
  - cbn [foldl]. destruct (IH (move_row st (i, f))) as [-> ->].
    rewrite fmap_cons, list_to_set_cons. cbn [snd].
    unfold move_row.
    destruct (bool_decide (f ∈ old_files st)) eqn:Ho;
      destruct (bool_decide (f ∈ new_files st)) eqn:Hn; simpl;
      try apply bool_decide_eq_true in Ho;
      try apply bool_decide_eq_false in Ho;
      try apply bool_decide_eq_true in Hn;
      try apply bool_decide_eq_false in Hn.
    all: split; apply set_eq; intros x; set_unfold;
      destruct (decide (x = f)) as [->|]; naive_solver.
Qed.

Lemma move_loop_not_found l st :
  files_not_found (foldl move_row st l)
  = files_not_found st
    ++ filter (λ f, f ∉ old_files st ∪ new_files st) l.*2.
Proof.
  revert st. induction l as [|[i f] l IH]; intros st.
  - simpl. by rewrite app_nil_r.
  - cbn [foldl]. rewrite IH, fmap_cons, filter_cons. cbn [snd].
    rewrite (list_filter_iff _ (λ f, f ∉ old_files st ∪ new_files st));
      [|by intros x; rewrite move_row_union].
    unfold move_row.
    destruct (bool_decide (f ∈ old_files st)) eqn:Ho;
      destruct (bool_decide (f ∈ new_files st)) eqn:Hn; simpl;
      try apply bool_decide_eq_true in Ho;
      try apply bool_decide_eq_false in Ho;
      try apply bool_decide_eq_true in Hn;
      try apply bool_decide_eq_false in Hn.
    + rewrite decide_False; [done|]. set_solver.
    + rewrite decide_False; [done|]. set_solver.
    + rewrite decide_False; [done|]. set_solver.
    + rewrite decide_True by set_solver. by rewrite <-app_assoc.
Qed.

Lemma move_loop_new_mono l st : new_files st ⊆ new_files (foldl move_row st l).
Proof. destruct (move_loop_dirs l st) as [-> _]. set_solver. Qed.


Lemma move_loop_count l st :
  length (files_not_found (foldl move_row st l))
  + length (duplicate_file_refs (foldl move_row st l))
  + size (new_files (foldl move_row st l))
  = length (files_not_found st) + length (duplicate_file_refs st)
    + size (new_files st) + length l.
Proof.
  revert st. induction l as [|[i f] l IH]; intros st; [simpl; lia|].
  cbn [foldl]. rewrite IH. unfold move_row.
  destruct (bool_decide (f ∈ old_files st)) eqn:Ho;
    destruct (bool_decide (f ∈ new_files st)) eqn:Hn; simpl;
    try apply bool_decide_eq_false in Hn;
    rewrite ?length_app; simpl; try lia.
  rewrite size_union by set_solver. rewrite size_singleton. lia.
Qed.



(** X16: every row of the index is accounted for once: the number of files
    that arrived in the new directory, the number of duplicate references
    and the number of files not found add up to the number of rows. *)
Theorem move_files_accounting old new cursor :
  size (new_files (move_files old new cursor) ∖ new)
  + length (duplicate_file_refs (move_files old new cursor))
  + length (files_not_found (move_files old new cursor))
  = length cursor.
Proof.
  pose proof (move_loop_count cursor (MoveState old new [] [])) as Hc.
  pose proof (move_loop_new_mono cursor (MoveState old new [] [])) as Hm.
  simpl in *. fold (move_files old new cursor) in Hc, Hm.
  assert (size (new_files (move_files old new cursor))
          = size new + size (new_files (move_files old new cursor) ∖ new))
    as Hsz.
  { rewrite <-size_union by set_solver. f_equal.
    apply set_eq. intros x. set_unfold.
    destruct (decide (x ∈ new)); naive_solver. }
  lia.
Qed.



(** X18: running the loop again over the same index moves nothing: both
    directories stay as the first run left them, the same references are
    reported as not found, and every other row is reported as a duplicate
    reference. *)
Theorem move_files_rerun old new cursor :
  let st := move_files old new cursor in
  let st2 := move_files (old_files st) (new_files st) cursor in
  old_files st2 = old_files st
  ∧ new_files st2 = new_files st
  ∧ files_not_found st2 = files_not_found st
  ∧ length (duplicate_file_refs st2) + length (files_not_found st2)
    = length cursor.
Proof.
  intros st st2.
  destruct (move_loop_dirs cursor (MoveState old new [] [])) as [Hn Ho].
  pose proof (move_loop_union cursor (MoveState old new [] [])) as Hu.
  destruct (move_loop_dirs cursor
              (MoveState (old_files st) (new_files st) [] [])) as [Hn2 Ho2].
  pose proof (move_loop_not_found cursor (MoveState old new [] [])) as Hnf.
  pose proof (move_loop_not_found cursor
                (MoveState (old_files st) (new_files st) [] [])) as Hnf2.
  pose proof (move_loop_count cursor
                (MoveState (old_files st) (new_files st) [] [])) as Hc2.
  simpl in Hn, Ho, Hu, Hn2, Ho2, Hnf, Hnf2, Hc2.
  fold (move_files old new cursor) in Hn, Ho, Hu, Hnf.
  fold (move_files (old_files st) (new_files st) cursor)
    in Hn2, Ho2, Hnf2, Hc2.
  fold st in Hn, Ho, Hu, Hnf. fold st2 in Hn2, Ho2, Hnf2, Hc2.
  revert Hn Ho Hn2 Ho2.
  generalize (list_to_set cursor.*2 : gset string). intros refs Hn Ho Hn2 Ho2.
  assert (new_files st2 = new_files st) as Hnew.
  { rewrite Hn2, Ho, Hn. clear. apply set_eq. intros x. set_unfold.
    destruct (decide (x ∈ new)); tauto. }
  split_and!.
  - rewrite Ho2, Ho, Hn. clear. apply set_eq. intros x. set_unfold.
    destruct (decide (x ∈ new)); tauto.
  - done.
  - by rewrite Hnf2, Hnf, Hu.
  - rewrite Hnew in Hc2. lia.
Qed.
End MoveFacts.
